(** * George: Gaussian-process regression (george.h)

    A shallow embedding of [src/george/george.h]: the two kernels, the
    [GaussianProcess] class with its three member functions, and the
    properties of the covariance builder, the likelihood and its gradient.

    The header computes with C++ [double]s and with Eigen's dense containers
    and its [LDLT] factorization.  Neither is part of the repository, so the
    embedding is parametric in them:

    - [Arith double] is the arithmetic the header uses on [double];
    - [Factorization double] is what the header uses of [Eigen::LDLT];
    - vectors and matrices are lists (of rows), indexed and updated in place
      with stdpp's lookup, insert and alter.

    Every statement that does not mention a law of arithmetic holds for every
    interpretation of these interfaces, IEEE binary64 included.  Statements
    that rearrange a formula are made over exact arithmetic ([ExactArith]). *)

From Stdlib Require Import ZArith QArith Ring.
From Stdlib Require Reals Lra.
From Stdlib Require Import Floats Uint63.
From stdpp Require Import base tactics option list.

Local Open Scope stdpp_scope.

(** ** The arithmetic of [double] *)

(** The operations george.h applies to [double] values.  [lit q] is the
    value of the decimal literal [q] of the source text, [of_int] the implicit
    conversion from [int]. *)
Class Arith (double : Type) : Type := {
  dadd : double → double → double;
  dsub : double → double → double;
  dmul : double → double → double;
  ddiv : double → double → double;
  dneg : double → double;
  dexp : double → double;
  dlog : double → double;
  lit : Q → double;
  of_int : Z → double
}.

(** [INFINITY] of <cmath>. *)
Class Infinity (double : Type) : Type := INFINITY : double.

(** The content of coefficient storage that was allocated and never written
    ([MatrixXd(n, n)], [VectorXd(n)]).  The source gives it no value; the
    model reads it as this one.  An out-of-range coefficient read (undefined
    behaviour in the source) is modelled the same way. *)
Class Indeterminate (double : Type) : Type := indeterminate : double.

(** Laws of exact arithmetic: a commutative ring in which division
    associates with multiplication and commutes with negation.  The real
    numbers satisfy them; binary64 does not (rounding). *)
Class ExactArith (double : Type) `{Arith double} : Prop := {
  exact_ring : ring_theory (lit 0) (lit 1) dadd dmul dsub dneg (@eq double);
  exact_mul_div : ∀ a b c : double, dmul a (ddiv b c) = ddiv (dmul a b) c;
  exact_neg_div : ∀ a b : double, dneg (ddiv a b) = ddiv (dneg a) b
}.

(** [#define TWOLNPI 1.8378770664093453] *)
Definition TWOLNPI `{Arith double} : double :=
  lit (18378770664093453 # 10000000000000000).

(** The literal [0.5]; the source writes [-0.5] for [dneg half]. *)
Definition half `{Arith double} : double := lit (1 # 2).

(** ** Eigen's dense containers *)

(** [VectorXd] is the list of its coefficients, [MatrixXd] the list of its
    rows. *)
Abbreviation VectorXd d := (list d) (only parsing).
Abbreviation MatrixXd d := (list (list d)) (only parsing).

(** [for (i = lo; i < hi; ++i) body], threading the variables the body
    assigns. *)
Definition for_loop {S : Type} (lo hi : nat) (body : nat → S → S) (s : S) : S :=
  foldl (λ s i, body i s) s (seq lo (hi - lo)).

Section Dense.
Context {double : Type} `{!Arith double, !Indeterminate double}.

(** [v.rows()], [M.rows()] *)
Definition rows {A : Type} (l : list A) : nat := length l.

(** [v(i)], [v[i]] *)
Definition vget (v : VectorXd double) (i : nat) : double :=
  default indeterminate (v !! i).

(** [M.row(i)] *)
Definition row (M : MatrixXd double) (i : nat) : VectorXd double :=
  default [] (M !! i).

(** [M(i, j)] as a value read *)
Definition coeff (M : MatrixXd double) (i j : nat) : option double :=
  M !! i ≫= (.!! j).

(** [M(i, j) = v] *)
Definition mat_set (M : MatrixXd double) (i j : nat) (v : double) : MatrixXd double :=
  alter (<[j := v]>) i M.

(** [VectorXd v(n)] *)
Definition VectorXd_new (n : nat) : VectorXd double := replicate n indeterminate.

(** [MatrixXd M(n, m)] *)
Definition MatrixXd_new (n m : nat) : MatrixXd double :=
  replicate n (replicate m indeterminate).

(** [VectorXd::Zero(n)] *)
Definition VectorXd_Zero (n : nat) : VectorXd double := replicate n (lit 0).

(** [x1 - x2] *)
Definition vsub (x1 x2 : VectorXd double) : VectorXd double := zip_with dsub x1 x2.

(** [v.sum()]: zero for the empty vector, otherwise the coefficients added
    from the first one on. *)
Definition vsum (v : VectorXd double) : double :=
  match v with
  | [] => lit 0
  | a :: v' => foldl dadd a v'
  end.

(** [a.dot(b)], and [a.transpose() * b] read as a scalar *)
Definition dot (a b : VectorXd double) : double := vsum (zip_with dmul a b).

(** [M.diagonal()] *)
Definition diagonal (M : MatrixXd double) : VectorXd double :=
  imap (λ i r, vget r i) M.

(** [M.trace()] *)
Definition trace (M : MatrixXd double) : double := vsum (diagonal M).

(** [log(v.array())] *)
Definition vlog (v : VectorXd double) : VectorXd double := dlog <$> v.



(** [M] has [n] rows of [m] coefficients each. *)
Definition shape (n m : nat) (M : MatrixXd double) : Prop :=
  length M = n ∧ ∀ i r, M !! i = Some r → length r = m.

End Dense.

(** ** The factorization collaborator *)

(** [Eigen::ComputationInfo] *)
Inductive ComputationInfo : Set :=
  | Success
  | NumericalIssue
  | NoConvergence
  | InvalidInput.

Definition ComputationInfo_eqb (a b : ComputationInfo) : bool :=
  match a, b with
  | Success, Success | NumericalIssue, NumericalIssue
  | NoConvergence, NoConvergence | InvalidInput, InvalidInput => true
  | _, _ => false
  end.

(** What george.h uses of [Eigen::LDLT<MatrixXd>]: the default constructor,
    the constructor from a matrix, and the const members [info], [solve]
    (with a vector and with a matrix on the right) and [vectorD]. *)
Class Factorization (double : Type) : Type := {
  LDLT : Type;
  LDLT_default : LDLT;
  LDLT_of : MatrixXd double → LDLT;
  LDLT_info : LDLT → ComputationInfo;
  LDLT_solve : LDLT → VectorXd double → VectorXd double;
  LDLT_solve_matrix : LDLT → MatrixXd double → MatrixXd double;
  LDLT_vectorD : LDLT → VectorXd double
}.

(** ** Kernels *)

(** The interface [GaussianProcess<KernelType>] uses of its kernel. *)
Class KernelOps (double : Type) (KernelType : Type) : Type := {
  npars : KernelType → nat;
  evaluate : KernelType → VectorXd double → VectorXd double → double;
  gradient : KernelType → VectorXd double → VectorXd double → VectorXd double
}.

(** [class Kernel] *)
Record Kernel (double : Type) : Type := mkKernel { pars_ : VectorXd double }.
Arguments mkKernel {double} _.
Arguments pars_ {double} _.

(** [class IsotropicGaussianKernel : public Kernel] *)
Record IsotropicGaussianKernel (double : Type) : Type :=
  mkIsotropicGaussianKernel { as_Kernel : Kernel double }.
Arguments mkIsotropicGaussianKernel {double} _.
Arguments as_Kernel {double} _.

Section Kernels.
Context {double : Type} `{!Arith double, !Indeterminate double}.

Definition Kernel_npars (k : Kernel double) : nat := rows (pars_ k).

Definition Kernel_evaluate (k : Kernel double) (x1 x2 : VectorXd double) : double :=
  lit 0.

Definition Kernel_gradient (k : Kernel double) (x1 x2 : VectorXd double) : VectorXd double :=
  let g := VectorXd_Zero (rows (pars_ k)) in
  g.

#[export] Instance Kernel_ops : KernelOps double (Kernel double) := {
  npars := Kernel_npars;
  evaluate := Kernel_evaluate;
  gradient := Kernel_gradient
}.

Definition IsotropicGaussianKernel_evaluate
    (k : IsotropicGaussianKernel double) (x1 x2 : VectorXd double) : double :=
  let pars := pars_ (as_Kernel k) in
  let d := vsub x1 x2 in
  let chi2 := ddiv (dot d d) (vget pars 1) in
  dmul (vget pars 0) (dexp (dmul (dneg half) chi2)).

Definition IsotropicGaussianKernel_gradient
    (k : IsotropicGaussianKernel double) (x1 x2 : VectorXd double) : VectorXd double :=
  let pars := pars_ (as_Kernel k) in
  let d := vsub x1 x2 in
  let grad := VectorXd_new (rows pars) in
  let e := ddiv (dmul (dneg half) (dot d d)) (vget pars 1) in
  let value := dexp e in
  let grad := <[0 := value]> grad in
  let grad := <[1 := dmul (dmul (ddiv (dneg e) (vget pars 1)) (vget pars 0)) value]> grad in
  grad.

#[export] Instance IsotropicGaussianKernel_ops :
    KernelOps double (IsotropicGaussianKernel double) := {
  npars k := Kernel_npars (as_Kernel k);
  evaluate := IsotropicGaussianKernel_evaluate;
  gradient := IsotropicGaussianKernel_gradient
}.

End Kernels.

(** ** Member functions as state transformers *)

(** A member function of an object of state [S] that returns an [A]. *)
Definition Method (S A : Type) : Type := S → A * S.

#[export] Instance Method_ret {S : Type} : MRet (Method S) :=
  λ A a s, (a, s).

#[export] Instance Method_bind {S : Type} : MBind (Method S) :=
  λ A B f m s, let '(a, s') := m s in f a s'.

(** Read a member. *)
Definition gets {S A : Type} (f : S → A) : Method S A := λ s, (f s, s).

(** Assign a member. *)
Definition modify {S : Type} (f : S → S) : Method S unit := λ s, (tt, f s).

(** ** [class GaussianProcess<KernelType>] *)

Record GaussianProcess (double KernelType : Type) `{!Factorization double} : Type :=
  mkGaussianProcess {
    kernel_ : KernelType;
    info_ : Z;
    computed_ : bool;
    x_ : MatrixXd double;
    L_ : LDLT
  }.
Arguments mkGaussianProcess {double KernelType _} _ _ _ _ _.
Arguments kernel_ {double KernelType _} _.
Arguments info_ {double KernelType _} _.
Arguments computed_ {double KernelType _} _.
Arguments x_ {double KernelType _} _.
Arguments L_ {double KernelType _} _.

Section GaussianProcess.
Context {double : Type}.
Context `{!Arith double, !Infinity double, !Indeterminate double}.
Context `{!Factorization double}.
Context {KernelType : Type} `{!KernelOps double KernelType}.

Local Abbreviation GP := (GaussianProcess double KernelType).

Definition set_info_ (v : Z) (gp : GP) : GP :=
  mkGaussianProcess (kernel_ gp) v (computed_ gp) (x_ gp) (L_ gp).

Definition set_computed_ (v : bool) (gp : GP) : GP :=
  mkGaussianProcess (kernel_ gp) (info_ gp) v (x_ gp) (L_ gp).

Definition set_x_ (v : MatrixXd double) (gp : GP) : GP :=
  mkGaussianProcess (kernel_ gp) (info_ gp) (computed_ gp) v (L_ gp).

Definition set_L_ (v : LDLT) (gp : GP) : GP :=
  mkGaussianProcess (kernel_ gp) (info_ gp) (computed_ gp) (x_ gp) v.

(** [GaussianProcess (KernelType& kernel)]: [x_] and [L_] are
    default-constructed. *)
Definition GaussianProcess_new (kernel : KernelType) : GP :=
  mkGaussianProcess kernel 0%Z false [] LDLT_default.

(** [int info () const] *)
Definition info (gp : GP) : Z := info_ gp.

(** [int computed () const]: the flag converted to [int]. *)
Definition computed (gp : GP) : Z := if computed_ gp then 1%Z else 0%Z.

(** The local [Kxx] of [compute] when the two loops are done. *)
Definition compute_Kxx (kernel : KernelType)
    (x : MatrixXd double) (yerr : VectorXd double) : MatrixXd double :=
  let nsamples := rows x in
  let Kxx := MatrixXd_new nsamples nsamples in
  for_loop 0 nsamples (λ i Kxx,
    let Kxx :=
      for_loop (i + 1) nsamples (λ j Kxx,
        let value := evaluate kernel (row x i) (row x j) in
        let Kxx := mat_set Kxx i j value in
        let Kxx := mat_set Kxx j i value in
        Kxx) Kxx in
    mat_set Kxx i i
      (dadd (evaluate kernel (row x i) (row x i))
            (dmul (vget yerr i) (vget yerr i)))) Kxx.

(** [int compute (MatrixXd x, VectorXd yerr)] *)
Definition compute (x : MatrixXd double) (yerr : VectorXd double) : Method GP Z :=
  modify (set_x_ x) ;;
  kernel ← gets kernel_ ;
  let Kxx := compute_Kxx kernel x yerr in
  modify (set_L_ (LDLT_of Kxx)) ;;
  L ← gets L_ ;
  if negb (ComputationInfo_eqb (LDLT_info L) Success) then mret (-1)%Z
  else
    modify (set_computed_ true) ;;
    mret 0%Z.

(** [double lnlikelihood (VectorXd y)] *)
Definition lnlikelihood (y : VectorXd double) : Method GP double :=
  computed ← gets computed_ ;
  x ← gets x_ ;
  if negb computed || negb (rows y =? rows x) then mret (dneg INFINITY)
  else
    L ← gets L_ ;
    let alpha := LDLT_solve L y in
    L ← gets L_ ;
    if negb (ComputationInfo_eqb (LDLT_info L) Success) then mret (dneg INFINITY)
    else
      L ← gets L_ ;
      let logdet := vsum (vlog (LDLT_vectorD L)) in
      mret (dmul (dneg half)
             (dadd (dadd (dot y alpha) logdet)
                   (dmul (of_int (Z.of_nat (rows y))) TWOLNPI))).

(** The locals [grad] and [dkdt] of [gradlnlikelihood] when the loop nest
    "Compute the gradient matrices" is done. *)
Definition gradient_matrices (kernel : KernelType) (x : MatrixXd double)
    (nsamples npars : nat) (s : VectorXd double * list (MatrixXd double)) :
    VectorXd double * list (MatrixXd double) :=
  for_loop 0 nsamples (λ i s,
    for_loop i nsamples (λ j '(_, dkdt),
      let grad := gradient kernel (row x i) (row x j) in
      let dkdt :=
        for_loop 0 npars (λ k dkdt,
          let dkdt := alter (λ M, mat_set M i j (vget grad k)) k dkdt in
          if i <? j then alter (λ M, mat_set M j i (vget grad k)) k dkdt
          else dkdt) dkdt in
      (grad, dkdt)) s) s.

(** The local [grad] of [gradlnlikelihood] when the loop "Compute the
    gradient" is done. *)
Definition gradient_entries (L : LDLT) (alpha : VectorXd double)
    (dkdt : list (MatrixXd double)) (nsamples npars : nat)
    (grad : VectorXd double) : VectorXd double :=
  for_loop 0 npars (λ k grad,
    let grad := <[k := trace (LDLT_solve_matrix L (default [] (dkdt !! k)))]> grad in
    let grad :=
      for_loop 0 nsamples (λ i grad,
        <[k := dsub (vget grad k)
                 (dmul (vget alpha i) (dot alpha (row (default [] (dkdt !! k)) i)))]> grad)
        grad in
    <[k := dmul (vget grad k) (dneg half)]> grad) grad.

(** The derivative matrix [dK_k] of the covariance with respect to the
    [k]-th kernel parameter, as a formula: at [(i, j)] the [k]-th component
    of the kernel gradient at the rows [i] and [j] of [x], lower index
    first, the diagonal included. *)
Definition dK (kernel : KernelType) (x : MatrixXd double) (k : nat) : MatrixXd double :=
  (λ i, (λ j, vget (gradient kernel (row x (i `min` j)) (row x (i `max` j))) k)
          <$> seq 0 (rows x)) <$> seq 0 (rows x).

(** [VectorXd gradlnlikelihood (VectorXd y)] *)
Definition gradlnlikelihood (y : VectorXd double) : Method GP (VectorXd double) :=
  kernel ← gets kernel_ ;
  let nsamples := rows y in
  let npars := npars kernel in
  let grad := VectorXd_new npars in
  let dkdt : list (MatrixXd double) := replicate npars [] in
  computed ← gets computed_ ;
  x ← gets x_ ;
  if negb computed || negb (rows y =? rows x) then
    modify (set_info_ (-1)%Z) ;;
    mret grad
  else
    L ← gets L_ ;
    let alpha := LDLT_solve L y in
    L ← gets L_ ;
    if negb (ComputationInfo_eqb (LDLT_info L) Success) then
      modify (set_info_ (-2)%Z) ;;
      mret grad
    else
      let dkdt :=
        for_loop 0 npars (λ i dkdt, <[i := MatrixXd_new nsamples nsamples]> dkdt) dkdt in
      kernel ← gets kernel_ ;
      x ← gets x_ ;
      let '(grad, dkdt) := gradient_matrices kernel x nsamples npars (grad, dkdt) in
      L ← gets L_ ;
      let grad := gradient_entries L alpha dkdt nsamples npars grad in
      mret grad.

End GaussianProcess.

(** ** Sequences of calls *)

(** A call of one of the three member functions that change or read the
    object, with its arguments. *)
Inductive Call (double : Type) : Type :=
  | call_compute (x : MatrixXd double) (yerr : VectorXd double)
  | call_lnlikelihood (y : VectorXd double)
  | call_gradlnlikelihood (y : VectorXd double).
Arguments call_compute {double} _ _.
Arguments call_lnlikelihood {double} _.
Arguments call_gradlnlikelihood {double} _.

Section Calls.
Context {double : Type}.
Context `{!Arith double, !Infinity double, !Indeterminate double}.
Context `{!Factorization double}.
Context {KernelType : Type} `{!KernelOps double KernelType}.

Local Abbreviation GP := (GaussianProcess double KernelType).

(** The two guards [lnlikelihood] and [gradlnlikelihood] share, passed:
    [computed_ && y.rows() == x_.rows()] and [L_.info() == Success]. *)
Definition evaluators_ready (y : VectorXd double) (gp : GP) : bool :=
  computed_ gp && (rows y =? rows (x_ gp)) &&
  ComputationInfo_eqb (LDLT_info (L_ gp)) Success.

(** The object after a call. *)
Definition call_state (c : Call double) (gp : GP) : GP :=
  match c with
  | call_compute x yerr => (compute x yerr gp).2
  | call_lnlikelihood y => (lnlikelihood y gp).2
  | call_gradlnlikelihood y => (gradlnlikelihood y gp).2
  end.

(** The object after a sequence of calls, first call first. *)
Definition calls (cs : list (Call double)) (gp : GP) : GP :=
  foldl (λ gp c, call_state c gp) gp cs.

End Calls.

(** ** Instances of the collaborators, for closed examples

    The theorems below are proved for every [Arith] and [Factorization].
    To evaluate the program on concrete inputs they are instantiated twice:
    with binary64 arithmetic ([Binary64]) and with the real numbers
    ([Exact]).  Both use the reference factorization of this section. *)

Section ReferenceLDLT.
Context {double : Type} `{!Arith double, !Indeterminate double}.
Variable bad_pivot : double → bool.

(** Textbook LDL^T without pivoting: [A = L D L^T] with [L] unit lower
    triangular (its strict lower part is kept, row by row) and [D] diagonal.
    [NumericalIssue] is reported when a pivot fails the test [bad_pivot]. *)
Record RefLDLT : Type := mkRefLDLT {
  ref_L : MatrixXd double;
  ref_D : VectorXd double;
  ref_info : ComputationInfo
}.

Definition dot3 (u v d : VectorXd double) : double :=
  vsum (zip_with dmul (zip_with dmul u v) d).

Definition ref_factor_row (s : MatrixXd double * VectorXd double)
    (i : nat) (a : VectorXd double) : MatrixXd double * VectorXd double :=
  let '(Ls, D) := s in
  let l :=
    for_loop 0 i (λ j l,
      l ++ [ddiv (dsub (vget a j) (dot3 l (row Ls j) D)) (vget D j)]) [] in
  (Ls ++ [l], D ++ [dsub (vget a i) (dot3 l l D)]).

Definition RefLDLT_of (A : MatrixXd double) : RefLDLT :=
  let '(Ls, D) :=
    for_loop 0 (rows A) (λ i s, ref_factor_row s i (row A i)) ([], []) in
  mkRefLDLT Ls D (if existsb bad_pivot D then NumericalIssue else Success).

Definition RefLDLT_solve (F : RefLDLT) (b : VectorXd double) : VectorXd double :=
  let n := rows (ref_L F) in
  let z := for_loop 0 n (λ i z, z ++ [dsub (vget b i) (dot (row (ref_L F) i) z)]) [] in
  let w := zip_with ddiv z (ref_D F) in
  for_loop 0 n (λ m x,
    let i := n - 1 - m in
    dsub (vget w i) (dot ((λ r, vget r i) <$> drop (S i) (ref_L F)) x) :: x) [].

Definition RefLDLT_solve_matrix (F : RefLDLT) (B : MatrixXd double) : MatrixXd double :=
  let cols := (λ j, RefLDLT_solve F ((λ r, vget r j) <$> B)) <$> seq 0 (rows (row B 0)) in
  (λ i, (λ c, vget c i) <$> cols) <$> seq 0 (rows B).

Definition RefLDLT_factorization : Factorization double := {|
  LDLT := RefLDLT;
  LDLT_default := mkRefLDLT [] [] Success;
  LDLT_of := RefLDLT_of;
  LDLT_info := ref_info;
  LDLT_solve := RefLDLT_solve;
  LDLT_solve_matrix := RefLDLT_solve_matrix;
  LDLT_vectorD := ref_D
|}.

End ReferenceLDLT.

(** *** IEEE binary64 *)

Module Binary64.
Local Open Scope Z_scope.

Definition of_Z (z : Z) : float :=
  match z with
  | Z0 => 0%float
  | Zpos _ => of_uint63 (Uint63.of_Z z)
  | Zneg p => (- of_uint63 (Uint63.of_Z (Zpos p)))%float
  end.

(** The binary64 value nearest to [n / d] (ties to even), for quotients in
    the normal range: how a compiler reads a decimal literal. *)
Definition round_pos (n d : positive) : float :=
  let scaled k :=
    if 0 <=? k then (Zpos n * 2 ^ k, Zpos d) else (Zpos n, Zpos d * 2 ^ (- k)) in
  let k := 53 - (Z.log2 (Zpos n) - Z.log2 (Zpos d)) in
  let k := let '(p, q) := scaled k in if 2 ^ 53 <=? p / q then k - 1 else k in
  let '(p, q) := scaled k in
  let m := p / q in
  let r := p mod q in
  let m := if (q <? 2 * r) || ((q =? 2 * r) && Z.odd m) then m + 1 else m in
  Z.ldexp (of_Z m) (- k).

Definition of_Q (q : Q) : float :=
  match Qnum q with
  | Z0 => 0%float
  | Zpos n => round_pos n (Qden q)
  | Zneg n => (- round_pos n (Qden q))%float
  end.

Definition horner (cs : list float) (t : float) : float :=
  foldr (λ c acc, (c + t * acc)%float) 0%float cs.

(** Reference models of <cmath>'s [exp] and [log], accurate to a few units
    in the last place on the normal range (not correctly rounded). *)
Definition reciprocals (ns : list Z) : list float :=
  (λ n, (1 / of_Z n)%float) <$> ns.

Definition exp (x : float) : float :=
  if PrimFloat.ltb 710 x then infinity
  else if PrimFloat.ltb x (-746) then 0%float
  else
    let y := (x / 1024)%float in
    let cs :=
      reciprocals [1; 2; 6; 24; 120; 720; 5040; 40320; 362880; 3628800; 39916800;
                   479001600; 6227020800; 87178291200; 1307674368000] in
    let t := (y * horner cs y)%float in
    (1 + Nat.iter 10 (λ t, t * (2 + t)) t)%float.

Definition log (x : float) : float :=
  if PrimFloat.ltb x 0 then nan
  else if PrimFloat.eqb x 0 then neg_infinity
  else if PrimFloat.eqb x infinity then infinity
  else if PrimFloat.eqb x x then
    let '(m, k) := Z.frexp x in
    let '(m, k) :=
      if PrimFloat.ltb m 0x1.6a09e667f3bcdp-1 then ((2 * m)%float, k - 1) else (m, k) in
    let z := ((m - 1) / (m + 1))%float in
    let cs := reciprocals [1; 3; 5; 7; 9; 11; 13; 15; 17; 19; 21] in
    (of_Z k * 0x1.62e42fefa39efp-1 + 2 * z * horner cs (z * z))%float
  else nan.

#[export] Instance arith : Arith float := {
  dadd := PrimFloat.add;
  dsub := PrimFloat.sub;
  dmul := PrimFloat.mul;
  ddiv := PrimFloat.div;
  dneg := PrimFloat.opp;
  dexp := exp;
  dlog := log;
  lit := of_Q;
  of_int := of_Z
}.

#[export] Instance inf : Infinity float := infinity.

#[export] Instance garbage : Indeterminate float := nan.

(** A pivot is valid when its absolute value is greater than zero (Eigen's
    test); a zero or NaN pivot is not. *)
#[export] Instance factorization : Factorization float :=
  RefLDLT_factorization (λ d, negb (PrimFloat.ltb 0 (PrimFloat.abs d))).

End Binary64.

(** *** Real numbers *)

Module Exact.
Import Reals.

#[export] Instance arith : Arith R := {
  dadd := Rplus;
  dsub := Rminus;
  dmul := Rmult;
  ddiv := Rdiv;
  dneg := Ropp;
  dexp := Rtrigo_def.exp;
  dlog := ln;
  lit := Q2R;
  of_int := IZR
}.

#[export] Instance garbage : Indeterminate R := 0%R.

(** Exact pivots are taken as they come: [info] is always [Success], as in
    the Eigen releases whose [LDLT::info] returns no other value. *)
#[export] Instance factorization : Factorization R :=
  RefLDLT_factorization (λ _, false).

#[export] Instance exact : ExactArith R.
Proof.
  split; [split|..]; simpl; unfold Q2R, Rdiv; simpl; intros; first [ring | field].
Qed.

End Exact.

(** * Properties *)

(** Unfold the monadic plumbing of a member function. *)
Ltac run_method :=
  unfold mbind, Method_bind, mret, Method_ret, gets, modify; simpl.

Lemma ComputationInfo_eqb_eq (a b : ComputationInfo) :
  ComputationInfo_eqb a b = true ↔ a = b.
Proof. destruct a, b; simpl; split; congruence. Qed.

Lemma ComputationInfo_eqb_neq (a b : ComputationInfo) :
  ComputationInfo_eqb a b = false ↔ a ≠ b.
Proof. destruct a, b; simpl; split; congruence. Qed.

Section StateProperties.
Context {double : Type}.
Context `{!Arith double, !Infinity double, !Indeterminate double}.
Context `{!Factorization double}.
Context {KernelType : Type} `{!KernelOps double KernelType}.

Local Abbreviation GP := (GaussianProcess double KernelType).

(** What [compute] does to the object, member by member. *)
Lemma compute_state (x : MatrixXd double) (yerr : VectorXd double) (gp : GP) :
  let F := LDLT_of (compute_Kxx (kernel_ gp) x yerr) in
  compute x yerr gp =
    if ComputationInfo_eqb (LDLT_info F) Success
    then (0%Z, mkGaussianProcess (kernel_ gp) (info_ gp) true x F)
    else ((-1)%Z, mkGaussianProcess (kernel_ gp) (info_ gp) (computed_ gp) x F).
Proof.
  unfold compute. run_method.
  destruct (ComputationInfo_eqb _ Success); reflexivity.
Qed.

(** The value [lnlikelihood] returns, by cases on its two guards. *)
Lemma lnlikelihood_value (y : VectorXd double) (gp : GP) :
  (lnlikelihood y gp).1 =
    if negb (computed_ gp) || negb (rows y =? rows (x_ gp)) then dneg INFINITY
    else if negb (ComputationInfo_eqb (LDLT_info (L_ gp)) Success) then dneg INFINITY
    else dmul (dneg half)
           (dadd (dadd (dot y (LDLT_solve (L_ gp) y)) (vsum (vlog (LDLT_vectorD (L_ gp)))))
                 (dmul (of_int (Z.of_nat (rows y))) TWOLNPI)).
Proof.
  unfold lnlikelihood. run_method.
  destruct (negb (computed_ gp) || _); [reflexivity|].
  destruct (negb (ComputationInfo_eqb _ _)); reflexivity.
Qed.

(** ** C1 *)


(** A successful [compute] puts the object in the state C1 asks for: the
    flag is set, the inputs are stored, and [L_] is the factorization of the
    covariance matrix of these inputs. *)
Lemma compute_success (x : MatrixXd double) (yerr : VectorXd double) (gp : GP) :
  (compute x yerr gp).1 = 0%Z →
  let gp' := (compute x yerr gp).2 in
  computed_ gp' = true ∧ x_ gp' = x ∧
  L_ gp' = LDLT_of (compute_Kxx (kernel_ gp) x yerr) ∧
  LDLT_info (L_ gp') = Success.
Proof.
  rewrite compute_state.
  destruct (ComputationInfo_eqb _ Success) eqn:E; simpl; [|discriminate].
  apply ComputationInfo_eqb_eq in E. auto.
Qed.

(** After a successful [compute], the likelihood is the formula of C1 with
    the factorization of the covariance matrix of the inputs just given. *)
Lemma lnlikelihood_after_compute
    (x : MatrixXd double) (yerr y : VectorXd double) (gp : GP) :
  (compute x yerr gp).1 = 0%Z →
  rows y = rows x →
  let F := LDLT_of (compute_Kxx (kernel_ gp) x yerr) in
  (lnlikelihood y (compute x yerr gp).2).1 =
    dmul (dneg half)
      (dadd (dadd (dot y (LDLT_solve F y)) (vsum (vlog (LDLT_vectorD F))))
            (dmul (of_int (Z.of_nat (rows y))) TWOLNPI)).
Proof.
  intros H Hn. destruct (compute_success x yerr gp H) as (Hc & Hx & HL & Hi).
  simpl. rewrite lnlikelihood_value, Hc, Hx, Hn, Hi, HL, Nat.eqb_refl. reflexivity.
Qed.

(** ** C3 *)

(** C3 (the code departs from the claim).  A [compute] call that returns
    -1 leaves the computed flag as it found it: [computed()] returns
    afterwards what it returned before, so 1 and not 0 when an earlier call
    had succeeded.  The stored factorization is then the failed one, and a
    following [lnlikelihood] returns the sentinel. *)
Theorem compute_failure_keeps_flag (x : MatrixXd double) (yerr : VectorXd double) (gp : GP) :
  (compute x yerr gp).1 = (-1)%Z →
  let gp' := (compute x yerr gp).2 in
  computed gp' = computed gp ∧
  LDLT_info (L_ gp') ≠ Success ∧
  ∀ y, (lnlikelihood y gp').1 = dneg INFINITY.
Proof.
  rewrite compute_state.
  destruct (ComputationInfo_eqb _ Success) eqn:E; simpl; [discriminate|].
  intros _. split; [reflexivity|]. split; [by apply ComputationInfo_eqb_neq|].
  intros y. rewrite lnlikelihood_value. simpl. rewrite E. simpl.
  by destruct (negb (computed_ gp) || _).
Qed.

(** ** C4 *)

(** C4 (amended).  [compute] reports its status through its return value
    only: 0 when the factorization reports success and -1 otherwise; the
    status code read by [info()] is the one the object had before the
    call. *)
Theorem compute_leaves_info (x : MatrixXd double) (yerr : VectorXd double) (gp : GP) :
  info (compute x yerr gp).2 = info gp ∧
  (compute x yerr gp).1 =
    if ComputationInfo_eqb (LDLT_info (LDLT_of (compute_Kxx (kernel_ gp) x yerr))) Success
    then 0%Z else (-1)%Z.
Proof.
  rewrite compute_state.
  destruct (ComputationInfo_eqb _ Success); simpl; auto.
Qed.

(** ** C5 *)

(** C5 (amended).  [lnlikelihood y] returns the sentinel [-INFINITY] when
    the object is not computed, or [y] is not as long as the stored training
    set, or the factorization reports failure; when none of these holds it
    returns the value of the likelihood formula, whatever that value is. *)
Theorem lnlikelihood_sentinel (gp : GP) (y : VectorXd double) :
  (computed_ gp = false ∨ rows y ≠ rows (x_ gp) ∨ LDLT_info (L_ gp) ≠ Success →
   (lnlikelihood y gp).1 = dneg INFINITY) ∧
  (¬ (computed_ gp = false ∨ rows y ≠ rows (x_ gp) ∨ LDLT_info (L_ gp) ≠ Success) →
   (lnlikelihood y gp).1 =
     dmul (dneg half)
       (dadd (dadd (dot y (LDLT_solve (L_ gp) y)) (vsum (vlog (LDLT_vectorD (L_ gp)))))
             (dmul (of_int (Z.of_nat (rows y))) TWOLNPI))).
Proof.
  rewrite lnlikelihood_value.
  destruct (computed_ gp) eqn:Hc; simpl.
  2: { split; [reflexivity|]. intros H. exfalso. apply H. auto. }
  destruct (rows y =? rows (x_ gp)) eqn:Hn; simpl.
  2: { apply Nat.eqb_neq in Hn. split; [reflexivity|]. intros H. exfalso. apply H. auto. }
  apply Nat.eqb_eq in Hn.
  destruct (ComputationInfo_eqb _ Success) eqn:Hi; simpl.
  - apply ComputationInfo_eqb_eq in Hi. split; [|reflexivity].
    intros [H|[H|H]]; [discriminate|contradiction|contradiction].
  - apply ComputationInfo_eqb_neq in Hi. split; [reflexivity|].
    intros H. exfalso. apply H. auto.
Qed.

(** ** C8 *)

(** What [gradlnlikelihood] does on its two failure paths. *)
Lemma gradlnlikelihood_failure (y : VectorXd double) (gp : GP) :
  negb (computed_ gp) || negb (rows y =? rows (x_ gp)) = true ∨
  ComputationInfo_eqb (LDLT_info (L_ gp)) Success = false →
  gradlnlikelihood y gp =
    (VectorXd_new (npars (kernel_ gp)),
     set_info_ (if negb (computed_ gp) || negb (rows y =? rows (x_ gp))
                then (-1)%Z else (-2)%Z) gp).
Proof.
  unfold gradlnlikelihood. run_method.
  destruct (negb (computed_ gp) || _); [reflexivity|].
  intros [? | ->]; [discriminate|]. reflexivity.
Qed.

(** C8.  [gradlnlikelihood y] stores -1 in the status code when the object
    is not computed or [y] is not as long as the stored training set, and
    -2 when (past that test) the factorization reports failure.  In both
    cases it returns the result vector as it was allocated, [npars]
    coefficients never written, and changes no other member. *)
Theorem gradlnlikelihood_status (gp : GP) (y : VectorXd double) :
  let r := gradlnlikelihood y gp in
  (computed_ gp = false ∨ rows y ≠ rows (x_ gp) →
   info r.2 = (-1)%Z ∧ r.1 = VectorXd_new (npars (kernel_ gp)) ∧ r.2 = set_info_ (-1)%Z gp) ∧
  (computed_ gp = true → rows y = rows (x_ gp) → LDLT_info (L_ gp) ≠ Success →
   info r.2 = (-2)%Z ∧ r.1 = VectorXd_new (npars (kernel_ gp)) ∧ r.2 = set_info_ (-2)%Z gp).
Proof.
  simpl. split.
  - intros H.
    assert (E : negb (computed_ gp) || negb (rows y =? rows (x_ gp)) = true).
    { destruct H as [-> | H]; [reflexivity|].
      apply Nat.eqb_neq in H. rewrite H. apply orb_true_r. }
    rewrite gradlnlikelihood_failure by auto. rewrite E. auto.
  - intros Hc Hn Hi. apply ComputationInfo_eqb_neq in Hi.
    rewrite gradlnlikelihood_failure by auto.
    rewrite Hc, Hn, Nat.eqb_refl. auto.
Qed.

(** ** C9 *)

(** C9.  The status [compute] returns, and the value [lnlikelihood] returns
    afterwards, are functions of the kernel and of the arguments alone: two
    runs with the same kernel, inputs and noise agree on both, whatever
    state each object was in before. *)
Theorem compute_deterministic (gp1 gp2 : GP)
    (x : MatrixXd double) (yerr y : VectorXd double) :
  kernel_ gp1 = kernel_ gp2 →
  (compute x yerr gp1).1 = (compute x yerr gp2).1 ∧
  (lnlikelihood y (compute x yerr gp1).2).1 = (lnlikelihood y (compute x yerr gp2).2).1.
Proof.
  intros Hk. rewrite !lnlikelihood_value, !compute_state, Hk.
  destruct (ComputationInfo_eqb _ Success) eqn:E; simpl; [auto|].
  split; [reflexivity|]. rewrite E. simpl.
  destruct (negb (computed_ gp1) || _), (negb (computed_ gp2) || _); reflexivity.
Qed.

(** Running [compute] again on the same object with the same arguments
    changes neither the status nor the object. *)
Lemma compute_idempotent (gp : GP) (x : MatrixXd double) (yerr : VectorXd double) :
  compute x yerr (compute x yerr gp).2 = compute x yerr gp.
Proof.
  rewrite (compute_state x yerr gp).
  destruct (ComputationInfo_eqb _ Success) eqn:E; simpl;
    rewrite compute_state; simpl; rewrite E; reflexivity.
Qed.

(** ** C10 *)

(** C10.  [lnlikelihood] assigns no member: the object after the call is the
    object before it, so the stored inputs, the factorization, the computed
    flag and the status code are unchanged, for every [y] and every state. *)
Theorem lnlikelihood_frame (gp : GP) (y : VectorXd double) :
  let gp' := (lnlikelihood y gp).2 in
  gp' = gp ∧
  x_ gp' = x_ gp ∧ L_ gp' = L_ gp ∧ computed gp' = computed gp ∧ info gp' = info gp.
Proof.
  assert (E : (lnlikelihood y gp).2 = gp).
  { unfold lnlikelihood. run_method.
    destruct (negb (computed_ gp) || _); [reflexivity|].
    destruct (negb (ComputationInfo_eqb _ _)); reflexivity. }
  simpl. rewrite E. auto.
Qed.

End StateProperties.

(** ** Loops and coefficient writes *)

Lemma for_loop_ge {St : Type} (lo hi : nat) (body : nat → St → St) (s : St) :
  hi ≤ lo → for_loop lo hi body s = s.
Proof. intros H. unfold for_loop. replace (hi - lo) with 0 by lia. reflexivity. Qed.

Lemma for_loop_S {St : Type} (lo hi : nat) (body : nat → St → St) (s : St) :
  lo ≤ hi → for_loop lo (S hi) body s = body hi (for_loop lo hi body s).
Proof.
  intros H. unfold for_loop. replace (S hi - lo) with (S (hi - lo)) by lia.
  rewrite seq_S, foldl_app. simpl. f_equal. lia.
Qed.

(** Loop invariants: [P i s] holds of the state before iteration [i]. *)
Lemma for_loop_ind {St : Type} (P : nat → St → Prop)
    (lo hi : nat) (body : nat → St → St) (s : St) :
  lo ≤ hi →
  P lo s →
  (∀ i s, lo ≤ i < hi → P i s → P (S i) (body i s)) →
  P hi (for_loop lo hi body s).
Proof.
  intros Hle H0 Hstep. induction hi as [|hi IH].
  - assert (lo = 0) as -> by lia. exact H0.
  - destruct (decide (lo = S hi)) as [->|Hne].
    + rewrite for_loop_ge by lia. exact H0.
    + rewrite for_loop_S by lia. apply Hstep; [lia|].
      apply IH; [lia|]. intros i s' Hi. apply Hstep. lia.
Qed.

(** Prove a goal about the first loop in it from the invariant [P]. *)
Ltac loop_invariant P :=
  match goal with
  | |- context [for_loop ?lo ?hi ?body ?s] =>
      cut (P hi (for_loop lo hi body s));
      [ cbv beta | apply (for_loop_ind P lo hi body s); cbv beta ]
  end.

Section DenseLemmas.
Context {double : Type} `{!Arith double, !Indeterminate double}.

Lemma shape_new (n m : nat) : shape n m (MatrixXd_new n m : MatrixXd double).
Proof.
  unfold MatrixXd_new. split; [apply length_replicate|].
  intros i r [-> _]%lookup_replicate. apply length_replicate.
Qed.

Lemma shape_mat_set (n m : nat) (M : MatrixXd double) (i j : nat) (v : double) :
  shape n m M → shape n m (mat_set M i j v).
Proof.
  intros [Hn Hm]. unfold mat_set. split; [by rewrite length_alter|].
  intros a r. destruct (decide (i = a)) as [->|Hne].
  - rewrite list_lookup_alter_eq. destruct (M !! a) as [r0|] eqn:E; [|done].
    simpl. intros [= <-]. rewrite length_insert. eauto.
  - rewrite list_lookup_alter_ne by done. apply Hm.
Qed.

Lemma coeff_mat_set (n m : nat) (M : MatrixXd double) (i j : nat) (v : double) (a b : nat) :
  shape n m M → i < n → j < m →
  coeff (mat_set M i j v) a b =
    if decide (a = i ∧ b = j) then Some v else coeff M a b.
Proof.
  intros [Hn Hm] Hi Hj. unfold coeff, mat_set.
  destruct (decide (i = a)) as [->|Hia].
  - rewrite list_lookup_alter_eq.
    destruct (lookup_lt_is_Some_2 M a) as [r Hr]; [lia|]. rewrite Hr. simpl.
    destruct (decide (j = b)) as [->|Hjb].
    + rewrite list_lookup_insert_eq by (erewrite Hm by done; lia).
      rewrite decide_True; done.
    + rewrite list_lookup_insert_ne by done. rewrite decide_False; [done|].
      intros [_ ?]. congruence.
  - rewrite list_lookup_alter_ne by done. rewrite decide_False; [done|].
    intros [? _]. congruence.
Qed.

Lemma coeff_is_Some (n m : nat) (M : MatrixXd double) (a b : nat) :
  shape n m M → a < n → b < m → is_Some (coeff M a b).
Proof.
  intros [Hn Hm] Ha Hb. unfold coeff.
  destruct (lookup_lt_is_Some_2 M a) as [r Hr]; [lia|]. rewrite Hr. simpl.
  apply lookup_lt_is_Some_2. erewrite Hm by done. lia.
Qed.

End DenseLemmas.

(** ** C6: the covariance matrix *)

Section Covariance.
Context {double : Type}.
Context `{!Arith double, !Infinity double, !Indeterminate double}.
Context `{!Factorization double}.
Context {KernelType : Type} `{!KernelOps double KernelType}.
Variables (kernel : KernelType) (x : MatrixXd double) (yerr : VectorXd double).

Let ev (i j : nat) : double := evaluate kernel (row x i) (row x j).

(** The inner loop of [compute] for row [i]: it writes [(i, j)] and
    [(j, i)] for every [j] past [i] and nothing else. *)
Lemma compute_Kxx_inner (n i : nat) (K0 : MatrixXd double) :
  shape n n K0 → i < n →
  let K :=
    for_loop (i + 1) n (λ j Kxx,
      let value := evaluate kernel (row x i) (row x j) in
      let Kxx := mat_set Kxx i j value in
      let Kxx := mat_set Kxx j i value in
      Kxx) K0 in
  shape n n K ∧
  ∀ a b, coeff K a b =
    if decide (a = i ∧ i < b < n) then Some (ev i b)
    else if decide (b = i ∧ i < a < n) then Some (ev i a)
    else coeff K0 a b.
Proof.
  intros Hs Hi. simpl.
  loop_invariant (λ j K, shape n n K ∧
    ∀ a b, coeff K a b =
      if decide (a = i ∧ i < b < j) then Some (ev i b)
      else if decide (b = i ∧ i < a < j) then Some (ev i a)
      else coeff K0 a b); [done|lia| |].
  - split; [done|]. intros a b.
    rewrite !decide_False by lia. done.
  - intros j K Hj [HK Hc]. split; [by do 2 apply shape_mat_set|].
    intros a b.
    rewrite (coeff_mat_set n n) by (try apply shape_mat_set; done || lia).
    rewrite (coeff_mat_set n n) by (done || lia).
    rewrite Hc. unfold ev.
    repeat case_decide; try done; try lia; destruct_and?; subst; try done; lia.
Qed.

(** The matrix [compute] builds, coefficient by coefficient. *)
Lemma compute_Kxx_coeff (a b : nat) :
  a < rows x → b < rows x →
  shape (rows x) (rows x) (compute_Kxx kernel x yerr) ∧
  coeff (compute_Kxx kernel x yerr) a b =
    Some (if decide (a < b) then ev a b
          else if decide (b < a) then ev b a
          else dadd (ev a a) (dmul (vget yerr a) (vget yerr a))).
Proof.
  intros Ha Hb. unfold compute_Kxx. set (n := rows x) in *.
  loop_invariant (λ i K, shape n n K ∧
    ∀ a b, a < n → b < n → (a < i ∨ b < i) →
      coeff K a b =
        Some (if decide (a < b) then ev a b
              else if decide (b < a) then ev b a
              else dadd (ev a a) (dmul (vget yerr a) (vget yerr a)))).
  - intros [Hs Hc]. split; [exact Hs|]. apply Hc; auto.
  - lia.
  - split; [apply shape_new|]. intros; lia.
  - intros i K Hi [HK Hc].
    destruct (compute_Kxx_inner n i K HK) as [HK' Hc']; [lia|].
    simpl in HK', Hc'.
    split; [by apply shape_mat_set|].
    intros a' b' Ha' Hb' Hlt.
    rewrite (coeff_mat_set n n) by (done || lia).
    rewrite Hc'. fold (ev i i).
    destruct (decide (a' = i ∧ b' = i)) as [[-> ->]|H1].
    { rewrite !decide_False by lia. done. }
    destruct (decide (a' = i ∧ i < b' < n)) as [[-> ?]|H2].
    { rewrite decide_True by lia. done. }
    destruct (decide (b' = i ∧ i < a' < n)) as [[-> ?]|H3].
    { rewrite decide_False by lia. rewrite decide_True by lia. done. }
    apply Hc; lia.
Qed.

(** C6.  The matrix [Kxx] that [compute] builds from an input matrix of [n]
    rows is symmetric; above and below the diagonal it holds the kernel
    evaluated at the two rows (lower index first, as the loop evaluates it
    once and writes it twice); on the diagonal it holds the kernel
    evaluated at the row with itself plus the square of the row's noise
    value. *)
Theorem compute_Kxx_spec :
  let K := compute_Kxx kernel x yerr in
  let n := rows x in
  (∀ i j, i < n → j < n → is_Some (coeff K i j) ∧ coeff K i j = coeff K j i) ∧
  (∀ i j, i < j < n →
     coeff K i j = Some (evaluate kernel (row x i) (row x j)) ∧
     coeff K j i = Some (evaluate kernel (row x i) (row x j))) ∧
  (∀ i e, i < n → yerr !! i = Some e →
     coeff K i i = Some (dadd (evaluate kernel (row x i) (row x i)) (dmul e e))).
Proof.
  simpl. split; [|split].
  - intros i j Hi Hj.
    destruct (compute_Kxx_coeff i j Hi Hj) as [_ Hij].
    destruct (compute_Kxx_coeff j i Hj Hi) as [_ Hji].
    rewrite Hij, Hji. split; [eauto|].
    repeat case_decide; try done; try lia.
    assert (i = j) as -> by lia. done.
  - intros i j Hij.
    destruct (compute_Kxx_coeff i j) as [_ H1]; [lia..|].
    destruct (compute_Kxx_coeff j i) as [_ H2]; [lia..|].
    rewrite H1, H2. rewrite !decide_True by lia.
    rewrite (decide_False (P := j < i)) by lia. rewrite decide_True by lia. done.
  - intros i e Hi He.
    destruct (compute_Kxx_coeff i i Hi Hi) as [_ H1]. rewrite H1.
    rewrite !decide_False by lia. unfold vget. rewrite He. done.
Qed.

End Covariance.

(** ** C7: the isotropic squared-exponential kernel *)

Section KernelFormulas.
Context {double : Type} `{!Arith double, !Indeterminate double}.
Context `{!ExactArith double}.

Add Ring double_ring : exact_ring.



End KernelFormulas.

(** ** C2: the gradient of the likelihood *)

Section MatrixFill.
Context {double : Type} `{!Arith double, !Indeterminate double}.

(** A matrix is determined by its shape and its coefficients. *)
Lemma matrix_eq_tabulate (n m : nat) (M : MatrixXd double) (f : nat → nat → double) :
  shape n m M →
  (∀ a b, a < n → b < m → coeff M a b = Some (f a b)) →
  M = (λ i, (λ j, f i j) <$> seq 0 m) <$> seq 0 n.
Proof.
  intros [Hn Hm] Hc. apply list_eq. intros a.
  rewrite list_lookup_fmap.
  destruct (decide (a < n)) as [Ha|Ha].
  - rewrite lookup_seq_lt by done. simpl.
    destruct (lookup_lt_is_Some_2 M a) as [r Hr]; [lia|]. rewrite Hr. f_equal.
    apply list_eq. intros b. rewrite list_lookup_fmap.
    destruct (decide (b < m)) as [Hb|Hb].
    + rewrite lookup_seq_lt by done. simpl.
      specialize (Hc a b Ha Hb). unfold coeff in Hc. rewrite Hr in Hc. exact Hc.
    + rewrite lookup_seq_ge by lia. simpl. apply lookup_ge_None.
      erewrite Hm by done. lia.
  - rewrite lookup_seq_ge by lia. simpl. apply lookup_ge_None. lia.
Qed.

(** [for (i = 0; i < np; ++i) dkdt[i] = M0] *)
Lemma fill_loop {A : Type} (np : nat) (M0 M1 : A) :
  for_loop 0 np (λ i d, <[i := M0]> d) (replicate np M1) = replicate np M0.
Proof.
  loop_invariant (λ i (d : list A),
    length d = np ∧ ∀ k, k < i → k < np → d !! k = Some M0).
  - intros [Hl Hk]. apply list_eq. intros k.
    destruct (decide (k < np)) as [Hlt|Hge].
    + rewrite Hk by done. symmetry. by apply lookup_replicate_2.
    + rewrite !(proj2 (lookup_ge_None _ _)); [done|rewrite length_replicate; lia|lia].
  - lia.
  - split; [apply length_replicate|]. intros; lia.
  - intros i d Hi [Hl Hk]. split; [by rewrite length_insert|].
    intros k Hk1 Hk2. destruct (decide (i = k)) as [->|Hne].
    + apply list_lookup_insert_eq. lia.
    + rewrite list_lookup_insert_ne by done. apply Hk; lia.
Qed.

(** The loop over the parameters inside the loop nest of
    [gradlnlikelihood]: entry [k] of the vector is updated by the [k]-th
    iteration and by no other. *)
Lemma alter_loop {A : Type} (np : nat) (f1 f2 : nat → A → A) (c : bool) (d : list A) :
  length d = np →
  let d' :=
    for_loop 0 np (λ k d,
      let d := alter (f1 k) k d in
      if c then alter (f2 k) k d else d) d in
  length d' = np ∧
  ∀ k, d' !! k = (λ M, if c then f2 k (f1 k M) else f1 k M) <$> d !! k.
Proof.
  intros Hd. simpl.
  loop_invariant (λ k (d' : list A),
    length d' = np ∧
    ∀ k', d' !! k' =
      if decide (k' < k) then (λ M, if c then f2 k' (f1 k' M) else f1 k' M) <$> d !! k'
      else d !! k').
  - intros [Hl Hk]. split; [done|]. intros k. rewrite Hk. case_decide; [done|].
    rewrite (proj2 (lookup_ge_None d k)) by lia. done.
  - lia.
  - split; [done|]. intros k'. by rewrite decide_False by lia.
  - intros k d' Hk [Hl Hd']. split.
    + destruct c; by rewrite ?length_alter.
    + intros k'. destruct (decide (k = k')) as [<-|Hne].
      * rewrite decide_True by lia.
        destruct c; rewrite ?list_lookup_alter_eq, Hd', decide_False by lia;
          by destruct (d !! k).
      * assert (E : (if c then alter (f2 k) k (alter (f1 k) k d') else alter (f1 k) k d') !! k'
                    = d' !! k').
        { destruct c; by rewrite ?list_lookup_alter_ne by done. }
        rewrite E, Hd'. repeat case_decide; try done; lia.
Qed.

End MatrixFill.

Section GradientMatrices.
Context {double : Type} `{!Arith double, !Indeterminate double}.
Context {KernelType : Type} `{!KernelOps double KernelType}.
Variables (kernel : KernelType) (x : MatrixXd double) (np : nat).
Hypothesis gradient_rows : ∀ x1 x2, rows (gradient kernel x1 x2) = np.

Let n : nat := rows x.
Let G (a b k : nat) : double := vget (gradient kernel (row x a) (row x b)) k.

(** Every matrix of [dkdt] is [n] by [n] and its coefficients at the
    positions [Q] already hold the gradient component they are meant to. *)
Let cells (Q : nat → nat → Prop) (dkdt : list (MatrixXd double)) : Prop :=
  ∀ k, k < np →
    ∃ M, dkdt !! k = Some M ∧ shape n n M ∧
      ∀ a b, a < n → b < n → Q a b →
        coeff M a b = Some (G (a `min` b) (a `max` b) k).

Lemma cells_weaken (Q Q' : nat → nat → Prop) (dkdt : list (MatrixXd double)) :
  (∀ a b, a < n → b < n → Q' a b → Q a b) → cells Q dkdt → cells Q' dkdt.
Proof.
  intros HQ Hc k Hk. destruct (Hc k Hk) as (M & HM & Hs & Hcoeff).
  exists M. split; [done|]. split; [done|]. intros a b Ha Hb HQ'. apply Hcoeff; auto.
Qed.

(** The loop over [j] for a fixed [i]. *)
Lemma gradient_matrices_row (i : nat) (s : VectorXd double * list (MatrixXd double)) :
  i < n →
  rows s.1 = np → length s.2 = np → cells (λ a b, a `min` b < i) s.2 →
  let s' :=
    for_loop i n (λ j '(_, dkdt),
      let grad := gradient kernel (row x i) (row x j) in
      let dkdt :=
        for_loop 0 np (λ k dkdt,
          let dkdt := alter (λ M, mat_set M i j (vget grad k)) k dkdt in
          if i <? j then alter (λ M, mat_set M j i (vget grad k)) k dkdt
          else dkdt) dkdt in
      (grad, dkdt)) s in
  rows s'.1 = np ∧ length s'.2 = np ∧ cells (λ a b, a `min` b < S i) s'.2.
Proof.
  intros Hi Hg Hd Hc. simpl.
  loop_invariant (λ j (s' : VectorXd double * list (MatrixXd double)),
    rows s'.1 = np ∧ length s'.2 = np ∧
    cells (λ a b, a `min` b < i ∨ (a `min` b = i ∧ a `max` b < j)) s'.2).
  - intros (Hg' & Hd' & Hc'). split; [done|]. split; [done|].
    revert Hc'. apply cells_weaken. intros a b Ha Hb Hab. lia.
  - lia.
  - split; [done|]. split; [done|].
    revert Hc. apply cells_weaken. intros a b Ha Hb Hab. lia.
  - intros j [g d] Hj (_ & Hd' & Hc'). simpl in Hd', Hc'.
    set (grad := gradient kernel (row x i) (row x j)).
    destruct (alter_loop np (λ k M, mat_set M i j (vget grad k))
                (λ k M, mat_set M j i (vget grad k)) (i <? j) d Hd') as [Hl Hk].
    simpl in Hl, Hk. simpl. split; [apply gradient_rows|]. split; [exact Hl|].
    intros k Hklt. destruct (Hc' k Hklt) as (M & HM & Hs & Hcoeff).
    rewrite Hk, HM. simpl. eexists. split; [reflexivity|].
    assert (Hv : vget grad k = G i j k) by reflexivity.
    destruct (i <? j) eqn:Hij.
    + apply Nat.ltb_lt in Hij. split; [by do 2 apply shape_mat_set|].
      intros a b Ha Hb HQ.
      rewrite (coeff_mat_set n n) by (try apply shape_mat_set; done || lia).
      rewrite (coeff_mat_set n n) by (done || lia).
      destruct (decide (a = j ∧ b = i)) as [[-> ->]|H1].
      { rewrite Hv. do 3 f_equal; lia. }
      destruct (decide (a = i ∧ b = j)) as [[-> ->]|H2].
      { rewrite Hv. do 3 f_equal; lia. }
      apply Hcoeff; [done..|]. lia.
    + apply Nat.ltb_ge in Hij. assert (j = i) as -> by lia.
      split; [by apply shape_mat_set|].
      intros a b Ha Hb HQ.
      rewrite (coeff_mat_set n n) by (done || lia).
      destruct (decide (a = i ∧ b = i)) as [[-> ->]|H2].
      { rewrite Hv. do 3 f_equal; lia. }
      apply Hcoeff; [done..|]. lia.
Qed.

(** The loop nest "Compute the gradient matrices" fills [dkdt[k]] with
    [dK k], and leaves in [grad] a vector of [np] coefficients. *)
Lemma gradient_matrices_spec (g0 : VectorXd double) :
  rows g0 = np →
  let s' := gradient_matrices kernel x n np (g0, replicate np (MatrixXd_new n n)) in
  rows s'.1 = np ∧ ∀ k, k < np → s'.2 !! k = Some (dK kernel x k).
Proof.
  intros Hg. simpl. unfold gradient_matrices.
  loop_invariant (λ i (s' : VectorXd double * list (MatrixXd double)),
    rows s'.1 = np ∧ length s'.2 = np ∧ cells (λ a b, a `min` b < i) s'.2).
  - intros (Hg' & Hd' & Hc'). split; [done|]. intros k Hk.
    destruct (Hc' k Hk) as (M & HM & Hs & Hcoeff). rewrite HM. f_equal.
    unfold dK. apply matrix_eq_tabulate; [done|].
    intros a b Ha Hb. apply Hcoeff; [done..|]. lia.
  - lia.
  - split; [done|]. split; [apply length_replicate|].
    intros k Hk. exists (MatrixXd_new n n).
    split; [by apply lookup_replicate_2|]. split; [apply shape_new|]. intros; lia.
  - intros i s Hi (Hg' & Hd' & Hc').
    apply gradient_matrices_row; [lia|done..].
Qed.

End GradientMatrices.


Section GradientEntries.
Context {double : Type} `{!Arith double, !Indeterminate double}.
Context `{!Factorization double}.

Lemma vget_insert_eq (g : VectorXd double) (k : nat) (v : double) :
  k < length g → vget (<[k := v]> g) k = v.
Proof. intros H. unfold vget. by rewrite list_lookup_insert_eq. Qed.

(** [for (i = 0; i < n; ++i) grad(k) -= c(i)] touches coefficient [k]
    only. *)
Lemma accumulate_loop (n k : nat) (c : nat → double) (g0 : VectorXd double) :
  k < length g0 →
  for_loop 0 n (λ i g, <[k := dsub (vget g k) (c i)]> g) g0 =
  <[k := for_loop 0 n (λ i acc, dsub acc (c i)) (vget g0 k)]> g0.
Proof.
  intros Hk. induction n as [|n IH].
  - rewrite !for_loop_ge by lia. symmetry. apply list_insert_id.
    unfold vget. by destruct (lookup_lt_is_Some_2 g0 k Hk) as [v ->].
  - rewrite !for_loop_S by lia. rewrite IH.
    rewrite vget_insert_eq by done. by rewrite list_insert_insert_eq.
Qed.

(** The loop "Compute the gradient", coefficient by coefficient, in the
    order of operations of the source. *)
Lemma gradient_entries_spec (L : LDLT) (alpha : VectorXd double)
    (dkdt : list (MatrixXd double)) (n np : nat) (grad : VectorXd double) :
  rows grad = np →
  let r := gradient_entries L alpha dkdt n np grad in
  rows r = np ∧
  ∀ k, k < np →
    r !! k =
      Some (dmul
              (for_loop 0 n (λ i acc,
                 dsub acc (dmul (vget alpha i) (dot alpha (row (default [] (dkdt !! k)) i))))
                 (trace (LDLT_solve_matrix L (default [] (dkdt !! k)))))
              (dneg half)).
Proof.
  intros Hg. simpl. unfold gradient_entries.
  set (val k :=
    dmul
      (for_loop 0 n (λ i acc,
         dsub acc (dmul (vget alpha i) (dot alpha (row (default [] (dkdt !! k)) i))))
         (trace (LDLT_solve_matrix L (default [] (dkdt !! k)))))
      (dneg half)).
  loop_invariant (λ k (g : VectorXd double),
    rows g = np ∧ ∀ k', k' < k → g !! k' = Some (val k')).
  - intros [Hl Hv]. auto.
  - lia.
  - split; [done|]. intros; lia.
  - intros k g Hk [Hl Hv]. unfold rows in *.
    rewrite (accumulate_loop n k
      (λ i, dmul (vget alpha i) (dot alpha (row (default [] (dkdt !! k)) i))))
      by (rewrite length_insert; lia).
    rewrite !vget_insert_eq by (rewrite ?length_insert; lia).
    rewrite !list_insert_insert_eq.
    split; [by rewrite length_insert|].
    intros k' Hk'. destruct (decide (k = k')) as [<-|Hne].
    + rewrite list_lookup_insert_eq by lia. done.
    + rewrite list_lookup_insert_ne by done. apply Hv. lia.
Qed.

End GradientEntries.

Section ExactSums.
Context {double : Type} `{!Arith double, !Indeterminate double}.
Context `{!ExactArith double}.

Add Ring double_ring' : exact_ring.








End ExactSums.

(** Both kernels of the source return a gradient of [npars] coefficients. *)
Lemma Kernel_gradient_rows {double : Type} `{!Arith double, !Indeterminate double}
    (k : Kernel double) (x1 x2 : VectorXd double) :
  rows (gradient k x1 x2) = npars k.
Proof. simpl. unfold Kernel_gradient, Kernel_npars, VectorXd_Zero, rows. apply length_replicate. Qed.

Lemma IsotropicGaussianKernel_gradient_rows
    {double : Type} `{!Arith double, !Indeterminate double}
    (k : IsotropicGaussianKernel double) (x1 x2 : VectorXd double) :
  rows (gradient k x1 x2) = npars k.
Proof.
  simpl. unfold IsotropicGaussianKernel_gradient, Kernel_npars, VectorXd_new, rows.
  by rewrite !length_insert, length_replicate.
Qed.

Section GradientFormula.
Context {double : Type}.
Context `{!Arith double, !Infinity double, !Indeterminate double}.
Context `{!Factorization double}.
Context {KernelType : Type} `{!KernelOps double KernelType}.

Local Abbreviation GP := (GaussianProcess double KernelType).

(** What [gradlnlikelihood] does past its two guards. *)
Lemma gradlnlikelihood_success (y : VectorXd double) (gp : GP) :
  computed_ gp = true →
  rows y = rows (x_ gp) →
  LDLT_info (L_ gp) = Success →
  let np := npars (kernel_ gp) in
  let n := rows (x_ gp) in
  gradlnlikelihood y gp =
    (let s := gradient_matrices (kernel_ gp) (x_ gp) n np
                (VectorXd_new np, replicate np (MatrixXd_new n n)) in
     gradient_entries (L_ gp) (LDLT_solve (L_ gp) y) s.2 n np s.1, gp).
Proof.
  intros Hc Hn Hi. simpl. unfold gradlnlikelihood. run_method.
  rewrite Hc, Hn, Nat.eqb_refl. simpl. rewrite Hi. simpl. rewrite fill_loop.
  by destruct (gradient_matrices _ _ _ _ _).
Qed.

Context `{!ExactArith double}.

Add Ring double_ring'' : exact_ring.


End GradientFormula.

(** * Closed instances

    The theorems above at concrete inputs, in binary64 arithmetic and over
    the real numbers. *)

Section Binary64Runs.
Import Binary64.
Local Open Scope float_scope.

Local Abbreviation kernel11 := (mkIsotropicGaussianKernel (mkKernel [1; 1]%float)).
Local Abbreviation kernelm11 := (mkIsotropicGaussianKernel (mkKernel [-1; 1]%float)).

(** The decimal constant of the source, read in binary64. *)
Example TWOLNPI_binary64 : TWOLNPI = 0x1.d67f1c864beb4p+0.
Proof. reflexivity. Qed.

(** Three training points at 0, 1 and 2 with noise 0.1 under the kernel
    [1; 1]: [compute] returns 0, [computed()] becomes 1, and the likelihood
    of [0; 0; 0] is a finite negative number. *)
Example three_points_run :
  let r := compute [[0]; [1]; [2]] [lit (1 # 10); lit (1 # 10); lit (1 # 10)]
             (GaussianProcess_new kernel11) in
  let l := (lnlikelihood [0; 0; 0] r.2).1 in
  r.1 = 0%Z ∧ computed r.2 = 1%Z ∧ (l <? 0) = true ∧ (neg_infinity <? l) = true.
Proof. vm_compute. auto. Qed.

(** The reference factorization on [[4, 2], [2, 3]]: [L = [[1, 0], [1/2, 1]]],
    [D = [4, 2]], and solving against the matrix itself gives the
    identity. *)
Example reference_factorization_run :
  let F := LDLT_of [[4; 2]; [2; 3]] in
  ref_L F = [[]; [0.5]] ∧ LDLT_vectorD F = [4; 2] ∧ LDLT_info F = Success ∧
  LDLT_solve_matrix F [[4; 2]; [2; 3]] = [[1; 0]; [0; 1]] ∧
  LDLT_solve F [8; 7] = [1.25; 1.5].
Proof. vm_compute. auto 6. Qed.

(** On the three points above and the targets [1; 2; 3], the two
    coefficients of [gradlnlikelihood] agree with the central differences
    of [lnlikelihood] in the two kernel parameters (step [2^-20]) to
    [2^-20]. *)
Example gradient_finite_difference_run :
  let noise := [lit (1 # 10); lit (1 # 10); lit (1 # 10)] in
  let gp a s :=
    (compute [[0]; [1]; [2]] noise
       (GaussianProcess_new (mkIsotropicGaussianKernel (mkKernel [a; s])))).2 in
  let L a s := (lnlikelihood [1; 2; 3] (gp a s)).1 in
  let h := 0x1p-20 in
  let g := (gradlnlikelihood [1; 2; 3] (gp 1 1)).1 in
  (abs (vget g 0 - (L (1 + h) 1 - L (1 - h) 1) / (2 * h)) <? h) = true ∧
  (abs (vget g 1 - (L 1 (1 + h) - L 1 (1 - h)) / (2 * h)) <? h) = true.
Proof. vm_compute. auto. Qed.


(** C3 at an input.  The kernel [-1; 1]: one point with noise 2 gives the
    matrix [[3]], which factors; two coincident points with noise 1 give
    [[0, -1], [-1, 0]], whose first pivot is zero over a non-zero column:
    the factorization reports [NumericalIssue].  After the second call
    [compute] has returned -1 and [computed()] still returns 1. *)
Lemma compute_failure_keeps_flag_witness :
  let r1 := compute [[0]] [2] (GaussianProcess_new kernelm11) in
  let r2 := compute [[0]; [0]] [1; 1] r1.2 in
  r1.1 = 0%Z ∧ r2.1 = (-1)%Z ∧
  computed r2.2 = computed r1.2 ∧ computed r2.2 = 1%Z ∧
  (lnlikelihood [1; 1] r2.2).1 = neg_infinity.
Proof.
  cbv zeta.
  set (gp := (compute [[0]] [2] (GaussianProcess_new kernelm11)).2).
  assert (H1 : (compute [[0]; [0]] [1; 1] gp).1 = (-1)%Z) by reflexivity.
  destruct (compute_failure_keeps_flag [[0]; [0]] [1; 1] gp H1) as (Hc & _ & Hl).
  split; [reflexivity|]. split; [exact H1|]. split; [exact Hc|].
  split; [rewrite Hc; reflexivity|exact (Hl [1; 1])].
Defined.

(** C4 as stated fails.  A [compute] call that fails on a fresh object
    returns -1 and leaves the
    status code at 0; one that succeeds after a failed [gradlnlikelihood]
    returns 0 and leaves the status code at -1. *)
Lemma compute_info_counterexample :
  let r1 := compute [[0]; [0]] [1; 1] (GaussianProcess_new kernelm11) in
  let r2 := compute [[0]] [1] (gradlnlikelihood [1] (GaussianProcess_new kernel11)).2 in
  (r1.1 = (-1)%Z ∧ info r1.2 = 0%Z) ∧ (r2.1 = 0%Z ∧ info r2.2 = (-1)%Z).
Proof. vm_compute. auto. Qed.

(** C5 as stated fails.  One training point at 0 without noise under the
    kernel [1; 1], and the target [2^600]: the object is computed, the lengths agree, the
    factorization of [[1]] reports success, and the likelihood formula
    overflows to the value of the sentinel. *)
Lemma lnlikelihood_sentinel_counterexample :
  let gp := (compute [[0]] [0] (GaussianProcess_new kernel11)).2 in
  let y := [0x1p+600%float] in
  (lnlikelihood y gp).1 = dneg INFINITY ∧
  ¬ (computed_ gp = false ∨ rows y ≠ rows (x_ gp) ∨ LDLT_info (L_ gp) ≠ Success).
Proof.
  cbv zeta. split; [vm_compute; reflexivity|].
  intros [H|[H|H]]; [vm_compute in H; discriminate H|apply H..]; vm_compute; reflexivity.
Qed.

(** C5 (amended) at an input: a fresh object. *)
Lemma lnlikelihood_sentinel_witness :
  let gp := GaussianProcess_new kernel11 in
  computed_ gp = false ∧ (lnlikelihood [1] gp).1 = neg_infinity.
Proof.
  cbv zeta. split; [reflexivity|].
  exact (proj1 (lnlikelihood_sentinel (GaussianProcess_new kernel11) [1%float])
           (or_introl eq_refl)).
Defined.

(** C6 at an input.  Three training points at 0, 1 and 2 with noise 1/2
    under the kernel [1; 1]. *)
Lemma compute_Kxx_spec_witness :
  let x := [[0]; [1]; [2]]%float in
  let K := compute_Kxx kernel11 x [0.5; 0.5; 0.5]%float in
  coeff K 0 2 = Some (evaluate kernel11 [0%float] [2%float]) ∧
  coeff K 2 0 = Some (evaluate kernel11 [0%float] [2%float]) ∧
  coeff K 1 1 = Some (1 + 0.25)%float ∧
  coeff K 1 2 = coeff K 2 1.
Proof.
  cbv zeta.
  destruct (compute_Kxx_spec kernel11 [[0]; [1]; [2]]%float [0.5; 0.5; 0.5]%float)
    as (Hsym & Hoff & Hdiag).
  cbv zeta in Hsym, Hoff, Hdiag.
  destruct (Hoff 0%nat 2%nat ltac:(unfold rows; simpl; lia)) as [H02 H20].
  split; [exact H02|]. split; [exact H20|].
  split; [|exact (proj2 (Hsym 1%nat 2%nat ltac:(unfold rows; simpl; lia) ltac:(unfold rows; simpl; lia)))].
  rewrite (Hdiag 1%nat 0.5 ltac:(unfold rows; simpl; lia) eq_refl). vm_compute. reflexivity.
Defined.

(** C8 at two inputs.  The two failure paths of [gradlnlikelihood]: a fresh
    object, and the
    object left by a [compute] that failed after one that succeeded. *)
Lemma gradlnlikelihood_status_witness :
  let gp1 := GaussianProcess_new kernelm11 in
  let gp2 := (compute [[0]; [0]] [1; 1] (compute [[0]] [2] gp1).2).2 in
  (info (gradlnlikelihood [1] gp1).2 = (-1)%Z ∧
   (gradlnlikelihood [1] gp1).1 = VectorXd_new 2) ∧
  (info (gradlnlikelihood [1; 1] gp2).2 = (-2)%Z ∧
   (gradlnlikelihood [1; 1] gp2).1 = VectorXd_new 2).
Proof.
  cbv zeta.
  set (gp1 := GaussianProcess_new kernelm11).
  set (gp2 := (compute [[0]; [0]] [1; 1] (compute [[0]] [2] gp1).2).2).
  destruct (gradlnlikelihood_status gp1 [1%float]) as [Ha _].
  destruct (gradlnlikelihood_status gp2 [1; 1]%float) as [_ Hb].
  destruct (Ha (or_introl eq_refl)) as (Ha1 & Ha2 & _).
  assert (Hi : LDLT_info (L_ gp2) ≠ Success) by (vm_compute; discriminate).
  destruct (Hb eq_refl eq_refl Hi) as (Hb1 & Hb2 & _).
  split; split; assumption.
Defined.

(** C9 at an input.  A fresh object and one that has already been computed
    on other inputs, both with the kernel [1; 1]. *)
Lemma compute_deterministic_witness :
  let gp1 := GaussianProcess_new kernel11 in
  let gp2 := (compute [[0]; [1]] [1; 1] gp1).2 in
  kernel_ gp1 = kernel_ gp2 ∧
  (compute [[0]] [1] gp1).1 = (compute [[0]] [1] gp2).1 ∧
  (lnlikelihood [1] (compute [[0]] [1] gp1).2).1 =
  (lnlikelihood [1] (compute [[0]] [1] gp2).2).1.
Proof.
  cbv zeta. split; [reflexivity|].
  exact (compute_deterministic (GaussianProcess_new kernel11)
           (compute [[0]; [1]] [1; 1] (GaussianProcess_new kernel11)).2
           [[0%float]] [1%float] [1%float] eq_refl).
Defined.

End Binary64Runs.

Section ExactRuns.
Import Reals Exact.
Local Open Scope R_scope.

Local Abbreviation kernel23 := (mkIsotropicGaussianKernel (mkKernel [2; 3])).



End ExactRuns.

(** * Further properties of the member functions *)

Lemma snoc_eq_middle {A : Type} (cs cs1 cs2 : list A) (c a : A) :
  cs ++ [c] = cs1 ++ a :: cs2 →
  (cs2 = [] ∧ cs = cs1 ∧ c = a) ∨ (∃ cs2', cs2 = cs2' ++ [c] ∧ cs = cs1 ++ a :: cs2').
Proof.
  destruct cs2 as [|z cs2 _] using rev_ind; intros H.
  - apply app_inj_tail in H as [-> ->]. auto.
  - right. exists cs2.
    change (cs ++ [c] = cs1 ++ (a :: cs2) ++ [z]) in H.
    rewrite app_assoc in H. apply app_inj_tail in H as [-> ->]. auto.
Qed.

Section ObjectStates.
Context {double : Type}.
Context `{!Arith double, !Infinity double, !Indeterminate double}.
Context `{!Factorization double}.
Context {KernelType : Type} `{!KernelOps double KernelType}.

Local Abbreviation GP := (GaussianProcess double KernelType).

Lemma lnlikelihood_state (y : VectorXd double) (gp : GP) :
  (lnlikelihood y gp).2 = gp.
Proof.
  unfold lnlikelihood. run_method.
  destruct (negb (computed_ gp) || _); [reflexivity|].
  destruct (negb (ComputationInfo_eqb _ _)); reflexivity.
Qed.

(** The object after [gradlnlikelihood], on its three paths. *)
Lemma gradlnlikelihood_state (y : VectorXd double) (gp : GP) :
  (gradlnlikelihood y gp).2 =
    if evaluators_ready y gp then gp
    else set_info_ (if negb (computed_ gp) || negb (rows y =? rows (x_ gp))
                    then (-1)%Z else (-2)%Z) gp.
Proof.
  unfold evaluators_ready.
  destruct (computed_ gp) eqn:Hc; simpl.
  2: { rewrite gradlnlikelihood_failure by (rewrite Hc; auto). by rewrite Hc. }
  destruct (rows y =? rows (x_ gp)) eqn:Hn; simpl.
  2: { rewrite gradlnlikelihood_failure by (rewrite Hc, Hn; auto). by rewrite Hc, Hn. }
  destruct (ComputationInfo_eqb _ Success) eqn:Hi.
  - apply Nat.eqb_eq in Hn. apply ComputationInfo_eqb_eq in Hi.
    by rewrite gradlnlikelihood_success.
  - rewrite gradlnlikelihood_failure by auto. by rewrite Hc, Hn.
Qed.

Lemma calls_snoc (cs : list (Call double)) (c : Call double) (gp : GP) :
  calls (cs ++ [c]) gp = call_state c (calls cs gp).
Proof. unfold calls. by rewrite foldl_app. Qed.

Lemma call_state_kernel (c : Call double) (gp : GP) :
  kernel_ (call_state c gp) = kernel_ gp.
Proof.
  destruct c as [x yerr|y|y]; simpl.
  - rewrite compute_state. by destruct (ComputationInfo_eqb _ _).
  - by rewrite lnlikelihood_state.
  - rewrite gradlnlikelihood_state. by destruct (evaluators_ready y gp).
Qed.

Lemma calls_kernel (cs : list (Call double)) (gp : GP) :
  kernel_ (calls cs gp) = kernel_ gp.
Proof.
  induction cs as [|c cs IH] using rev_ind; [done|].
  by rewrite calls_snoc, call_state_kernel.
Qed.

(** The computed flag after a call: set by a [compute] that returns 0,
    otherwise as before. *)
Lemma call_state_computed (c : Call double) (gp : GP) :
  computed_ (call_state c gp) =
    match c with
    | call_compute x yerr => computed_ gp || bool_decide ((compute x yerr gp).1 = 0%Z)
    | _ => computed_ gp
    end.
Proof.
  destruct c as [x yerr|y|y]; simpl.
  - rewrite compute_state.
    destruct (ComputationInfo_eqb _ _); simpl; by rewrite ?orb_true_r, ?orb_false_r.
  - by rewrite lnlikelihood_state.
  - rewrite gradlnlikelihood_state. by destruct (evaluators_ready y gp).
Qed.

(** The status code after a call: -1 or -2 after a [gradlnlikelihood] that
    stops at a guard, otherwise as before. *)
Lemma call_state_info (c : Call double) (gp : GP) :
  info_ (call_state c gp) =
    match c with
    | call_gradlnlikelihood y =>
        if evaluators_ready y gp then info_ gp
        else if negb (computed_ gp) || negb (rows y =? rows (x_ gp)) then (-1)%Z
        else (-2)%Z
    | _ => info_ gp
    end.
Proof.
  destruct c as [x yerr|y|y]; simpl.
  - rewrite compute_state. by destruct (ComputationInfo_eqb _ _).
  - by rewrite lnlikelihood_state.
  - rewrite gradlnlikelihood_state. by destruct (evaluators_ready y gp).
Qed.

(** [gradlnlikelihood] writes no member but the status code, and not even
    that one when both guards are passed: the stored inputs, the
    factorization, the computed flag and the kernel are those of the object
    before the call on every path. *)
Theorem gradlnlikelihood_frame (gp : GP) (y : VectorXd double) :
  let gp' := (gradlnlikelihood y gp).2 in
  x_ gp' = x_ gp ∧ L_ gp' = L_ gp ∧ computed_ gp' = computed_ gp ∧
  kernel_ gp' = kernel_ gp ∧
  (evaluators_ready y gp = true → gp' = gp) ∧
  (evaluators_ready y gp = false → info gp' = (-1)%Z ∨ info gp' = (-2)%Z).
Proof.
  simpl. rewrite gradlnlikelihood_state.
  destruct (evaluators_ready y gp); simpl; repeat split; try done.
  intros _. unfold info. simpl. destruct (negb (computed_ gp) || _); auto.
Qed.

(** Over the life of an object (any sequence of calls after construction)
    the kernel is the one given to the constructor and the status code is
    0, -1 or -2. *)
Theorem calls_kernel_and_info (kernel : KernelType) (cs : list (Call double)) :
  let gp := calls cs (GaussianProcess_new kernel) in
  kernel_ gp = kernel ∧ (info gp = 0%Z ∨ info gp = (-1)%Z ∨ info gp = (-2)%Z).
Proof.
  simpl. split; [apply calls_kernel|]. unfold info.
  induction cs as [|c cs IH] using rev_ind; [auto|].
  rewrite calls_snoc, call_state_info.
  destruct c as [x yerr|y|y]; try done.
  destruct (evaluators_ready _ _); [done|].
  destruct (negb _ || _); auto.
Qed.


(** Over the life of an object, [computed()] tells whether some [compute]
    call has returned 0, not whether the last one did: the flag is set
    exactly when the sequence of calls contains a [compute] that
    succeeded. *)
Theorem calls_computed_iff (kernel : KernelType) (cs : list (Call double)) :
  computed_ (calls cs (GaussianProcess_new kernel)) = true ↔
  ∃ cs1 x yerr cs2,
    cs = cs1 ++ call_compute x yerr :: cs2 ∧
    (compute x yerr (calls cs1 (GaussianProcess_new kernel))).1 = 0%Z.
Proof.
  induction cs as [|c cs IH] using rev_ind.
  - split; [discriminate|]. intros (cs1 & x & yerr & cs2 & H & _).
    by destruct cs1.
  - rewrite calls_snoc, call_state_computed. split.
    + intros H.
      assert (Hold : computed_ (calls cs (GaussianProcess_new kernel)) = true →
        ∃ cs1 x yerr cs2,
          cs ++ [c] = cs1 ++ call_compute x yerr :: cs2 ∧
          (compute x yerr (calls cs1 (GaussianProcess_new kernel))).1 = 0%Z).
      { intros (cs1 & x & yerr & cs2 & -> & Hok)%IH.
        exists cs1, x, yerr, (cs2 ++ [c]). split; [|done].
        by rewrite <- app_assoc. }
      destruct c as [x yerr|y|y]; [|by apply Hold..].
      apply orb_true_iff in H as [H|H]; [by apply Hold|].
      apply bool_decide_eq_true in H.
      exists cs, x, yerr, []. done.
    + intros (cs1 & x & yerr & cs2 & Heq & Hok).
      apply snoc_eq_middle in Heq as [(-> & -> & ->)|(cs2' & -> & ->)].
      * rewrite bool_decide_eq_true_2 by done. apply orb_true_r.
      * assert (Hprev : computed_ (calls (cs1 ++ call_compute x yerr :: cs2')
                                     (GaussianProcess_new kernel)) = true).
        { apply IH. eauto 6. }
        rewrite Hprev. by destruct c.
Qed.

(** Over the life of an object the status code is never set back to 0:
    [info()] differs from 0 exactly when the sequence of calls contains a
    [gradlnlikelihood] that stopped at one of its guards, however many
    calls succeeded afterwards. *)
Theorem calls_info_iff (kernel : KernelType) (cs : list (Call double)) :
  info (calls cs (GaussianProcess_new kernel)) ≠ 0%Z ↔
  ∃ cs1 y cs2,
    cs = cs1 ++ call_gradlnlikelihood y :: cs2 ∧
    evaluators_ready y (calls cs1 (GaussianProcess_new kernel)) = false.
Proof.
  unfold info. induction cs as [|c cs IH] using rev_ind.
  - split; [done|]. intros (cs1 & y & cs2 & H & _). by destruct cs1.
  - rewrite calls_snoc, call_state_info.
    assert (Hold : info_ (calls cs (GaussianProcess_new kernel)) ≠ 0%Z →
      ∃ cs1 y cs2,
        cs ++ [c] = cs1 ++ call_gradlnlikelihood y :: cs2 ∧
        evaluators_ready y (calls cs1 (GaussianProcess_new kernel)) = false).
    { intros (cs1 & y & cs2 & -> & Hf)%IH.
      exists cs1, y, (cs2 ++ [c]). split; [|done]. by rewrite <- app_assoc. }
    split.
    + intros H. destruct c as [x yerr|y|y]; [by apply Hold..|].
      destruct (evaluators_ready y _) eqn:E; [by apply Hold|].
      exists cs, y, []. done.
    + intros (cs1 & y & cs2 & Heq & Hf).
      apply snoc_eq_middle in Heq as [(-> & -> & ->)|(cs2' & -> & ->)].
      * rewrite Hf. by destruct (negb _ || _).
      * assert (Hprev : info_ (calls (cs1 ++ call_gradlnlikelihood y :: cs2')
                                 (GaussianProcess_new kernel)) ≠ 0%Z).
        { apply IH. eauto 6. }
        destruct c as [x' yerr'|y'|y']; try done.
        destruct (evaluators_ready y' _); [done|]. by destruct (negb _ || _).
Qed.

End ObjectStates.

(** ** Further properties of the kernels *)

Section KernelSymmetry.
Context {double : Type} `{!Arith double, !Indeterminate double}.
Context `{!ExactArith double}.

Add Ring double_ring_sym : exact_ring.

Lemma squares_of_differences_comm (a b : VectorXd double) :
  zip_with dmul (zip_with dsub a b) (zip_with dsub a b) =
  zip_with dmul (zip_with dsub b a) (zip_with dsub b a).
Proof.
  revert b. induction a as [|u a IH]; intros [|v b]; simpl; [done..|].
  f_equal; [ring|apply IH].
Qed.




(** Over exact arithmetic the isotropic kernel is symmetric in its two
    points, and so is its gradient. *)
Theorem IsotropicGaussianKernel_symmetric
    (k : IsotropicGaussianKernel double) (x1 x2 : VectorXd double) :
  evaluate k x1 x2 = evaluate k x2 x1 ∧ gradient k x1 x2 = gradient k x2 x1.
Proof.
  simpl. unfold IsotropicGaussianKernel_evaluate, IsotropicGaussianKernel_gradient.
  unfold dot, vsub. by rewrite (squares_of_differences_comm x1 x2).
Qed.


End KernelSymmetry.

(** ** Further properties of the two matrix builders *)

Section Builders.
Context {double : Type}.
Context `{!Arith double, !Infinity double, !Indeterminate double}.
Context `{!Factorization double}.

(** With the base [Kernel], whose [evaluate] returns 0.0, the matrix
    [compute] builds is diagonal: 0.0 off the diagonal, and 0.0 plus the
    square of the noise value on it. *)
Theorem compute_Kxx_base_Kernel
    (k : Kernel double) (x : MatrixXd double) (yerr : VectorXd double) (i j : nat) :
  i < rows x → j < rows x →
  coeff (compute_Kxx k x yerr) i j =
    Some (if decide (i = j)
          then dadd (lit 0) (dmul (vget yerr i) (vget yerr i))
          else lit 0).
Proof.
  intros Hi Hj. destruct (compute_Kxx_coeff k x yerr i j Hi Hj) as [_ ->].
  simpl. unfold Kernel_evaluate. repeat case_decide; try done; lia.
Qed.

Context {KernelType : Type} `{!KernelOps double KernelType}.

(** [compute] reads the first [x.rows()] noise values and no other: two
    noise vectors that agree there give the same matrix, hence the same
    factorization and status. *)
Theorem compute_reads_noise_prefix
    (x : MatrixXd double) (yerr yerr' : VectorXd double)
    (gp : GaussianProcess double KernelType) :
  (∀ i, i < rows x → yerr !! i = yerr' !! i) →
  compute_Kxx (kernel_ gp) x yerr = compute_Kxx (kernel_ gp) x yerr' ∧
  compute x yerr gp = compute x yerr' gp.
Proof.
  intros H.
  assert (E : compute_Kxx (kernel_ gp) x yerr = compute_Kxx (kernel_ gp) x yerr').
  { set (f a b :=
      if decide (a < b) then evaluate (kernel_ gp) (row x a) (row x b)
      else if decide (b < a) then evaluate (kernel_ gp) (row x b) (row x a)
      else dadd (evaluate (kernel_ gp) (row x a) (row x a))
                (dmul (vget yerr a) (vget yerr a))).
    destruct (decide (rows x = 0)) as [E0|Hne].
    { unfold compute_Kxx. rewrite E0. reflexivity. }
    rewrite (matrix_eq_tabulate (rows x) (rows x) (compute_Kxx (kernel_ gp) x yerr) f).
    - rewrite (matrix_eq_tabulate (rows x) (rows x) (compute_Kxx (kernel_ gp) x yerr') f);
        [done| |].
      + apply (compute_Kxx_coeff (kernel_ gp) x yerr' 0 0); lia.
      + intros a b Ha Hb.
        destruct (compute_Kxx_coeff (kernel_ gp) x yerr' a b Ha Hb) as [_ ->].
        unfold f, vget. by rewrite (H a Ha).
    - apply (compute_Kxx_coeff (kernel_ gp) x yerr 0 0); lia.
    - intros a b Ha Hb.
      by destruct (compute_Kxx_coeff (kernel_ gp) x yerr a b Ha Hb) as [_ ->]. }
  split; [exact E|]. by rewrite !compute_state, E.
Qed.

(** The loop nest "Compute the gradient matrices" of [gradlnlikelihood]
    leaves in [dkdt[k]] the matrix [dK k]: [n] by [n], symmetric, with at
    [(i, j)] the [k]-th component of the kernel gradient at the rows
    [min i j] and [max i j], the diagonal included.  The kernel is taken to
    return [np] gradient components. *)
Theorem gradient_matrices_symmetric
    (kernel : KernelType) (x : MatrixXd double) (np k : nat) :
  (∀ x1 x2, rows (gradient kernel x1 x2) = np) →
  k < np →
  let n := rows x in
  let dkdt :=
    (gradient_matrices kernel x n np
       (VectorXd_new np, replicate np (MatrixXd_new n n))).2 in
  dkdt !! k = Some (dK kernel x k) ∧
  shape n n (dK kernel x k) ∧
  ∀ i j, i < n → j < n →
    coeff (dK kernel x k) i j =
      Some (vget (gradient kernel (row x (i `min` j)) (row x (i `max` j))) k) ∧
    coeff (dK kernel x k) i j = coeff (dK kernel x k) j i.
Proof.
  intros Hlen Hk. simpl.
  destruct (gradient_matrices_spec kernel x np Hlen (VectorXd_new np)) as [_ Hd].
  { apply length_replicate. }
  split; [by apply Hd|].
  assert (Hc : ∀ i j, i < rows x → j < rows x →
    coeff (dK kernel x k) i j =
      Some (vget (gradient kernel (row x (i `min` j)) (row x (i `max` j))) k)).
  { intros i j Hi Hj. unfold coeff, dK.
    rewrite list_lookup_fmap, lookup_seq_lt by done. simpl.
    by rewrite list_lookup_fmap, lookup_seq_lt. }
  split.
  - unfold dK. split; [by rewrite length_fmap, length_seq|].
    intros i r [i' [-> _]]%list_lookup_fmap_Some.
    by rewrite length_fmap, length_seq.
  - intros i j Hi Hj. split; [by apply Hc|].
    rewrite !Hc by done. by rewrite Nat.min_comm, Nat.max_comm.
Qed.

End Builders.

Section ResultRows.
Context {double : Type}.
Context `{!Arith double, !Infinity double, !Indeterminate double}.
Context `{!Factorization double}.
Context {KernelType : Type} `{!KernelOps double KernelType}.

Lemma gradlnlikelihood_rows_of
    (gp : GaussianProcess double KernelType) (y : VectorXd double) :
  (∀ x1 x2, rows (gradient (kernel_ gp) x1 x2) = npars (kernel_ gp)) →
  rows (gradlnlikelihood y gp).1 = npars (kernel_ gp).
Proof.
  intros Hlen.
  destruct (evaluators_ready y gp) eqn:E; unfold evaluators_ready in E.
  - apply andb_true_iff in E as [[Hc Hn]%andb_true_iff Hi].
    apply Nat.eqb_eq in Hn. apply ComputationInfo_eqb_eq in Hi.
    rewrite gradlnlikelihood_success by done. simpl.
    destruct (gradient_matrices_spec (kernel_ gp) (x_ gp) (npars (kernel_ gp)) Hlen
                (VectorXd_new (npars (kernel_ gp)))) as [Hg _].
    { apply length_replicate. }
    by apply gradient_entries_spec.
  - rewrite gradlnlikelihood_failure.
    + apply length_replicate.
    + destruct (computed_ gp), (rows y =? rows (x_ gp)); simpl in *; auto.
Qed.

End ResultRows.

(** With either kernel of the source, [gradlnlikelihood] returns [npars]
    coefficients on every path: at a guard, and past both for every number
    of samples, zero included. *)
Theorem gradlnlikelihood_rows
    {double : Type} `{!Arith double, !Infinity double, !Indeterminate double}
    `{!Factorization double} (y : VectorXd double) :
  (∀ gp : GaussianProcess double (Kernel double),
     rows (gradlnlikelihood y gp).1 = npars (kernel_ gp)) ∧
  (∀ gp : GaussianProcess double (IsotropicGaussianKernel double),
     rows (gradlnlikelihood y gp).1 = npars (kernel_ gp)).
Proof.
  split; intros gp; apply gradlnlikelihood_rows_of.
  - apply Kernel_gradient_rows.
  - apply IsotropicGaussianKernel_gradient_rows.
Qed.

Section StatusCodeUnread.
Context {double : Type}.
Context `{!Arith double, !Infinity double, !Indeterminate double}.
Context `{!Factorization double}.
Context {KernelType : Type} `{!KernelOps double KernelType}.

(** The status code is written and never read: what [compute],
    [lnlikelihood] and [gradlnlikelihood] return is the same whatever value
    [info_] holds, so an earlier failure recorded there changes no later
    result. *)
Theorem results_ignore_info (v : Z) (gp : GaussianProcess double KernelType)
    (x : MatrixXd double) (yerr y : VectorXd double) :
  (compute x yerr (set_info_ v gp)).1 = (compute x yerr gp).1 ∧
  (lnlikelihood y (set_info_ v gp)).1 = (lnlikelihood y gp).1 ∧
  (gradlnlikelihood y (set_info_ v gp)).1 = (gradlnlikelihood y gp).1.
Proof.
  split; [|split].
  - rewrite !compute_state. simpl. by destruct (ComputationInfo_eqb _ _).
  - by rewrite !lnlikelihood_value.
  - destruct (evaluators_ready y gp) eqn:E; unfold evaluators_ready in E.
    + apply andb_true_iff in E as [[Hc Hn]%andb_true_iff Hi].
      apply Nat.eqb_eq in Hn. apply ComputationInfo_eqb_eq in Hi.
      by rewrite !gradlnlikelihood_success.
    + assert (H : negb (computed_ gp) || negb (rows y =? rows (x_ gp)) = true ∨
                  ComputationInfo_eqb (LDLT_info (L_ gp)) Success = false).
      { destruct (computed_ gp), (rows y =? rows (x_ gp)); simpl in *; auto. }
      by rewrite !gradlnlikelihood_failure.
Qed.

End StatusCodeUnread.


(** * Closed instances of the further properties *)

Section MoreBinary64Runs.
Import Binary64.
Local Open Scope float_scope.

Local Abbreviation kernel11 := (mkIsotropicGaussianKernel (mkKernel [1; 1]%float)).

(** [compute] on two points at 0 and 1 with noise 1/2, then the likelihood
    of [1; 2]. *)
Lemma lnlikelihood_after_compute_witness :
  let gp := GaussianProcess_new kernel11 in
  let x := [[0]; [1]] in
  let F := LDLT_of (compute_Kxx kernel11 x [0.5; 0.5]) in
  (compute x [0.5; 0.5] gp).1 = 0%Z ∧
  (lnlikelihood [1; 2] (compute x [0.5; 0.5] gp).2).1 =
    -0.5 * ((dot [1; 2] (LDLT_solve F [1; 2]) + vsum (vlog (LDLT_vectorD F)))
            + 2 * TWOLNPI).
Proof.
  cbv zeta.
  assert (H1 : (compute [[0]; [1]] [0.5; 0.5] (GaussianProcess_new kernel11)).1 = 0%Z)
    by reflexivity.
  split; [exact H1|].
  rewrite (lnlikelihood_after_compute [[0]; [1]] [0.5; 0.5] [1; 2]
             (GaussianProcess_new kernel11) H1 eq_refl).
  vm_compute. reflexivity.
Defined.

(** The base kernel on three points with noise 1, 2 and 3. *)
Lemma compute_Kxx_base_Kernel_witness :
  let K := compute_Kxx (mkKernel [5]) [[0]; [1]; [2]] [1; 2; 3] in
  coeff K 1 1 = Some 4 ∧ coeff K 0 2 = Some 0 ∧ coeff K 2 1 = Some 0.
Proof.
  cbv zeta.
  rewrite !(compute_Kxx_base_Kernel (mkKernel [5]) [[0]; [1]; [2]] [1; 2; 3])
    by (unfold rows; simpl; lia).
  vm_compute. auto.
Defined.

(** A noise vector with one value more than there are points. *)
Lemma compute_reads_noise_prefix_witness :
  let gp := GaussianProcess_new kernel11 in
  compute_Kxx kernel11 [[0]; [1]] [1; 2] = compute_Kxx kernel11 [[0]; [1]] [1; 2; 7] ∧
  compute [[0]; [1]] [1; 2] gp = compute [[0]; [1]] [1; 2; 7] gp.
Proof.
  cbv zeta.
  apply (compute_reads_noise_prefix [[0]; [1]] [1; 2] [1; 2; 7]
           (GaussianProcess_new kernel11)).
  intros [|[|i]] Hi; [reflexivity..|]. unfold rows in Hi. simpl in Hi. lia.
Defined.

(** The derivative matrix for the second parameter of the kernel [1; 1] on
    two points. *)
Lemma gradient_matrices_symmetric_witness :
  let x := [[0]; [1]] in
  (gradient_matrices kernel11 x 2 2
     (VectorXd_new 2, replicate 2 (MatrixXd_new 2 2))).2 !! 1%nat =
    Some (dK kernel11 x 1) ∧
  coeff (dK kernel11 x 1) 0 1 = coeff (dK kernel11 x 1) 1 0.
Proof.
  cbv zeta.
  destruct (gradient_matrices_symmetric kernel11 [[0]; [1]] 2 1
              (IsotropicGaussianKernel_gradient_rows kernel11) ltac:(lia))
    as (Hd & _ & Hc).
  split; [exact Hd|].
  exact (proj2 (Hc 0%nat 1%nat ltac:(unfold rows; simpl; lia)
                  ltac:(unfold rows; simpl; lia))).
Defined.


End MoreBinary64Runs.

Section MoreExactRuns.
Import Reals Exact.
Local Open Scope R_scope.

(** The kernel [2; 3] over the real numbers at the points [1; 5] and
    [4; 0]. *)
Lemma IsotropicGaussianKernel_symmetric_witness :
  let k := mkIsotropicGaussianKernel (mkKernel [2; 3]) in
  ExactArith R ∧
  evaluate k [1; 5] [4; 0] = evaluate k [4; 0] [1; 5] ∧
  gradient k [1; 5] [4; 0] = gradient k [4; 0] [1; 5].
Proof.
  cbv zeta. split; [exact exact|].
  exact (IsotropicGaussianKernel_symmetric (double := R)
           (mkIsotropicGaussianKernel (mkKernel [2; 3])) [1; 5] [4; 0]).
Defined.


End MoreExactRuns.
